(** * socket-loader: a shallow embedding of [src/index.js] (class [Loader])

    The loader scans directories for handler modules ([when]), accumulates
    extra arguments ([withExtraArgument]) and binds the handlers of every
    discovered module to the [connection] event of a server ([into]).

    JavaScript values are modelled by [jsval]; module exports by [export];
    the host platform (filesystem, [require], behaviour of user classes) by
    the record [Env].  The [Loader] object, the server's listeners, the
    instances created by [new], the log and the trace of handler calls form
    the mutable [World]; the code runs in a state-and-exception monad in
    which, as in JavaScript, mutations done before a [throw] persist. *)

From Stdlib Require Import String List ZArith Bool Lia Ascii.
Import ListNotations.
Open Scope string_scope.
Open Scope list_scope.

(** ** Values *)

(** A value as the loader sees it.  [VFun f] is a plain function, [VClass c b]
    a class constructor (its source starts with [class]) whose instances have
    a [connection] member iff [b]; [VBound c i] is [instance.connection.bind(instance)]
    for instance [i] of class [c]; [VObj n] is an object (a server, a socket). *)
Inductive jsval : Type :=
| VFun (f : nat)
| VClass (c : nat) (has_connection : bool)
| VBound (c : nat) (inst : nat)
| VObj (n : nat)
| VNum (z : Z)
| VStr (s : string).

Definition jsval_eq_dec (x y : jsval) : {x = y} + {x <> y}.
Proof.
  decide equality; first [apply Nat.eq_dec | apply Bool.bool_dec
                         | apply Z.eq_dec | apply string_dec].
Defined.

(** What a module can export: a bound method of the loader's own instances
    is never among the exports. *)
Inductive export : Type :=
| XFun (f : nat)
| XClass (c : nat) (has_connection : bool)
| XNum (z : Z)
| XStr (s : string).

Definition of_export (x : export) : jsval :=
  match x with
  | XFun f => VFun f
  | XClass c b => VClass c b
  | XNum z => VNum z
  | XStr s => VStr s
  end.

(** [typeof i === 'function'] *)
Definition is_function (v : jsval) : bool :=
  match v with
  | VFun _ | VClass _ _ | VBound _ _ => true
  | _ => false
  end.

(** [/^\s*class\s+/.test(i.toString())] *)
Definition is_class (v : jsval) : bool :=
  match v with
  | VClass _ _ => true
  | _ => false
  end.

(** [mod.indexOf(v)] (strict equality), [-1] being [length mod]. *)
Fixpoint index_of (v : jsval) (l : list jsval) : nat :=
  match l with
  | [] => 0
  | x :: l' => if jsval_eq_dec x v then 0 else S (index_of v l')
  end.

(** [a[n] = v] for an index inside the array. *)
Fixpoint set_nth {A : Type} (n : nat) (v : A) (l : list A) : list A :=
  match l, n with
  | [], _ => []
  | _ :: l', O => v :: l'
  | x :: l', S n' => x :: set_nth n' v l'
  end.

(** ** Strings and paths *)

Definition dot : ascii := "."%char.
Definition slash : ascii := "/"%char.

(** [/[^.]+$/.exec(filename)]: the longest non-empty suffix without a dot,
    or [null] ([None]) when the name ends with a dot. *)
Fixpoint take_no_dot (l : list ascii) : list ascii :=
  match l with
  | [] => []
  | c :: l' => if Ascii.eqb c dot then [] else c :: take_no_dot l'
  end.

Definition ext_match (filename : string) : option string :=
  match take_no_dot (List.rev (list_ascii_of_string filename)) with
  | [] => None
  | t => Some (string_of_list_ascii (List.rev t))
  end.

(** [filename.charAt(0) === '.'] *)
Definition starts_with_dot (filename : string) : bool :=
  match filename with
  | String c _ => Ascii.eqb c dot
  | EmptyString => false
  end.

(** [path.join(a, b)] for a directory [a] and a relative name [b]. *)
Definition join (a b : string) : string := a ++ "/" ++ b.

(** The last path segment, as logged by [into] ([parts[parts.length - 1]]). *)
Definition last_segment (p : string) : string :=
  let fix go (l acc : list ascii) : list ascii :=
    match l with
    | [] => acc
    | c :: l' => if Ascii.eqb c slash then go l' [] else go l' (acc ++ [c])
    end in
  string_of_list_ascii (go (list_ascii_of_string p) []).

(** [Array.prototype.includes] on strings. *)
Fixpoint includes (l : list string) (s : string) : bool :=
  match l with
  | [] => false
  | x :: l' => String.eqb x s || includes l' s
  end.

(** ** Configuration and state *)

(** [Options]: the logger is named by an identifier ([0] for [console]). *)
Record Options : Type := mkOptions {
  cwd : string;
  verbose : bool;
  logger : nat;
  extensions : list string;
  withNamespace : bool
}.

(** The overlay passed to the constructor: every field optional. *)
Record Overlay : Type := mkOverlay {
  o_cwd : option string;
  o_verbose : option bool;
  o_logger : option nat;
  o_extensions : option (list string);
  o_withNamespace : option bool
}.

(** The fields of a [Loader] object. *)
Record Loader : Type := mkLoader {
  options : Options;
  extraArguments : list jsval;
  files : list string
}.

Inductive level : Type := Info | Warn | Error | LogLevel.

(** One call of a handler: a plain function [f], or the bound [connection]
    method of instance [i] of class [c], entered with instance state [st]. *)
Inductive call : Type :=
| TCall (f : nat) (args : list jsval)
| TMethod (c : nat) (i : nat) (st : Z) (args : list jsval).

Record World : Type := mkWorld {
  loader : Loader;
  (** the [connection] listeners: the server [into] was given and the
      handler list [fns] the closure captured *)
  listeners : list (jsval * list jsval);
  (** the instances created by [new]: class and state, indexed by identity *)
  instances : list (nat * Z);
  logs : list (nat * level * string);
  trace : list call
}.

(** The host platform. *)
Record Env : Type := mkEnv {
  process_cwd : string;
  fs_exists : string -> bool;
  fs_is_directory : string -> bool;
  fs_readdir : string -> list string;
  (** [require(file)]: the values of [Object.keys(T)] in order, or the
      message of the error raised while loading *)
  require : string -> list export + string;
  (** the state of a fresh instance of a class, and the effect of its
      [connection] method on the state of the instance *)
  class_init : nat -> Z;
  class_step : nat -> Z -> Z
}.

Inductive exn : Type :=
| ErrMsg (msg : string)   (* new Error(msg) *)
| TypeErr (msg : string). (* a TypeError raised by the runtime *)

Inductive result (A : Type) : Type :=
| Ok (a : A)
| Exc (e : exn).
Arguments Ok {A} a.
Arguments Exc {A} e.

(** ** The state-and-exception monad *)

Definition M (A : Type) : Type := World -> World * result A.

Definition ret {A} (a : A) : M A := fun w => (w, Ok a).
Definition bind {A B} (m : M A) (k : A -> M B) : M B :=
  fun w => match m w with
           | (w', Ok a) => k a w'
           | (w', Exc e) => (w', Exc e)
           end.
Definition throw {A} (e : exn) : M A := fun w => (w, Exc e).
Definition gets {A} (f : World -> A) : M A := fun w => (w, Ok (f w)).
Definition modify (f : World -> World) : M unit := fun w => (f w, Ok tt).

(** [do x <- m; k] runs [m], then [k] on its value; [do '(a, b) <- m; k]
    destructures a pair; [m ;; k] discards a [unit]. *)
Notation "'do' v <- m ; rest" := (bind m (fun v => rest))
  (at level 60, right associativity, m at next level).
Notation "'do' ' p <- m ; rest" :=
  (bind m (fun pr => match pr with p => rest end))
  (at level 60, right associativity, p pattern, m at next level).
Notation "c1 ;; c2" := (bind c1 (fun _ : unit => c2))
  (at level 60, right associativity).

(** Reading one option: [this.options.<field>]. *)
Definition opt {A} (f : Options -> A) : M A :=
  gets (fun w => f (options (loader w))).

(** ** Record updates *)

Definition set_loader (l : Loader) (w : World) : World :=
  mkWorld l (listeners w) (instances w) (logs w) (trace w).
Definition set_files (fs : list string) (w : World) : World :=
  set_loader (mkLoader (options (loader w)) (extraArguments (loader w)) fs) w.
Definition set_extra (xs : list jsval) (w : World) : World :=
  set_loader (mkLoader (options (loader w)) xs (files (loader w))) w.
Definition add_listener (lst : jsval * list jsval) (w : World) : World :=
  mkWorld (loader w) (listeners w ++ [lst]) (instances w) (logs w) (trace w).
Definition set_instances (is : list (nat * Z)) (w : World) : World :=
  mkWorld (loader w) (listeners w) is (logs w) (trace w).
Definition add_log (e : nat * level * string) (w : World) : World :=
  mkWorld (loader w) (listeners w) (instances w) (logs w ++ [e]) (trace w).
Definition add_trace (t : call) (w : World) : World :=
  mkWorld (loader w) (listeners w) (instances w) (logs w) (trace w ++ [t]).

(** The state of instance [i]. *)
Definition inst_state (i : nat) (w : World) : Z := snd (nth i (instances w) (0, 0%Z)).

(** ** The class [Loader] *)

Section Loader.
Variable env : Env.

(** [new Loader(options)]: the overlay merged over the defaults. *)
Definition make_options (o : Overlay) : Options :=
  mkOptions (match o_cwd o with Some c => c | None => process_cwd env end)
            (match o_verbose o with Some v => v | None => false end)
            (match o_logger o with Some l => l | None => 0 end)
            (match o_extensions o with Some e => e | None => ["js"; "mjs"] end)
            (match o_withNamespace o with Some n => n | None => true end).

Definition new_loader (o : Overlay) : Loader := mkLoader (make_options o) [] [].

(** [log(message, type)] *)
Definition log (message : string) (type : level) : M unit :=
  do v <- opt verbose;
  do lg <- opt logger;
  if v then modify (add_log (lg, type, message)) else ret tt.

(** One iteration of the loop of [when] over [fs.readdirSync(location)];
    [continue] ends the iteration. *)
Definition when_entry (location filename : string) : M unit :=
  match ext_match filename with
  | None => throw (TypeErr "object null is not iterable")
  | Some extension =>
      do exts <- opt extensions;
      if negb (includes exts extension) then
        log ("Ignoring extension: " ++ extension) Info
      else if starts_with_dot filename then
        log ("Ignoring hidden entity: " ++ filename) Info
      else
        do fs <- gets (fun w => files (loader w));
        modify (set_files (fs ++ [join location filename]))
  end.

Fixpoint when_entries (location : string) (l : list string) : M unit :=
  match l with
  | [] => ret tt
  | filename :: l' => when_entry location filename ;; when_entries location l'
  end.

(** [when(dirname)] *)
Definition when_ (dirname : string) : M unit :=
  do c <- opt cwd;
  let location := join c dirname in
  if negb (fs_exists env location) then
    log ("Entity not found " ++ location) Error
  else if negb (fs_is_directory env location) then
    log (location ++ " not is an folder") Error
  else when_entries location (fs_readdir env location).

(** [withExtraArgument(...extraArgument)] *)
Definition withExtraArgument (extraArgument : list jsval) : M unit :=
  do xs <- gets (fun w => extraArguments (loader w));
  modify (set_extra (xs ++ extraArgument)).

(** [new C()]: a fresh instance of class [c]; its identity. *)
Definition new_instance (c : nat) : M nat :=
  do is <- gets instances;
  modify (set_instances (is ++ [(c, class_init env c)])) ;;
  ret (length is).

(** One iteration of [for (const i of mod)] in [into], at index [k]:
    the new [mod] and the new [fns] ([mod] is a keyword here: [md]). *)
Definition into_step (file : string) (k : nat) (md fns : list jsval)
  : M (list jsval * list jsval) :=
  let i := nth k md (VNum 0) in
  if negb (is_function i) then throw (ErrMsg "module requires an function")
  else
    do md' <-
      (if is_class i then
         let idx := index_of i md in
         match nth idx md (VNum 0) with
         | VClass c has_connection =>
             do inst <- new_instance c;
             if has_connection then ret (set_nth idx (VBound c inst) md)
             else log "cannot load route" Error ;; ret md
         | _ => throw (TypeErr "mod[mod.indexOf(i)] is not a constructor")
         end
       else ret md);
    log ("loaded: " ++ last_segment file) Info ;;
    ret (md', fns ++ md').

(** The array iterator of [for (const i of mod)]: indices [k] to
    [k + fuel - 1], reading [mod] as it stands at each step. *)
Fixpoint into_loop (file : string) (fuel k : nat) (md fns : list jsval)
  : M (list jsval) :=
  match fuel with
  | O => ret fns
  | S fuel' =>
      do '(md', fns') <- into_step file k md fns;
      into_loop file fuel' (S k) md' fns'
  end.

(** The body of [for (const file of this.files)] in [into]. *)
Definition into_file (file : string) (fns : list jsval) : M (list jsval) :=
  match require env file with
  | inr message =>
      throw (ErrMsg ("Failed to require " ++ file ++ " because: " ++ message))
  | inl T =>
      let md := map of_export T in
      into_loop file (length md) 0 md fns
  end.

Fixpoint into_files (fs : list string) (fns : list jsval) : M (list jsval) :=
  match fs with
  | [] => ret fns
  | file :: fs' => do fns' <- into_file file fns; into_files fs' fns'
  end.

(** [into(server)] *)
Definition into (server : jsval) : M unit :=
  do fs <- gets (fun w => files (loader w));
  do fns <- into_files fs [];
  modify (add_listener (server, fns)).

(** [fn(server, socket, ...this.extraArguments)] *)
Definition call_fn (fn : jsval) (args : list jsval) : M unit :=
  match fn with
  | VFun f => modify (add_trace (TCall f args))
  | VBound c i =>
      do st <- gets (inst_state i);
      do is <- gets instances;
      modify (set_instances (set_nth i (c, class_step env c st) is)) ;;
      modify (add_trace (TMethod c i st args))
  | VClass _ _ => throw (TypeErr "Class constructor cannot be invoked without 'new'")
  | _ => throw (TypeErr "fn is not a function")
  end.

(** The listener registered by [into]: [socket => { for (const fn of fns) ... }]. *)
Fixpoint run_handlers (server socket : jsval) (fns : list jsval) : M unit :=
  match fns with
  | [] => ret tt
  | fn :: fns' =>
      do xs <- gets (fun w => extraArguments (loader w));
      call_fn fn (server :: socket :: xs) ;;
      run_handlers server socket fns'
  end.

Fixpoint emit_listeners (server socket : jsval) (ls : list (jsval * list jsval))
  : M unit :=
  match ls with
  | [] => ret tt
  | (s, fns) :: ls' =>
      (if jsval_eq_dec s server then run_handlers s socket fns else ret tt) ;;
      emit_listeners server socket ls'
  end.

(** [server.emit('connection', socket)]: the listeners in registration order;
    an exception of a handler leaves the emission. *)
Definition fire (server socket : jsval) : M unit :=
  do ls <- gets listeners;
  emit_listeners server socket ls.

(** A session of the facade: each operation is run and its outcome recorded
    (as if the caller caught what it raises). *)
Inductive op : Type :=
| OpWhen (dirname : string)
| OpExtra (args : list jsval)
| OpInto (server : jsval)
| OpFire (server socket : jsval).

Definition exec (o : op) : M unit :=
  match o with
  | OpWhen d => when_ d
  | OpExtra xs => withExtraArgument xs
  | OpInto s => into s
  | OpFire s k => fire s k
  end.

Fixpoint run (ops : list op) (w : World) : World * list (result unit) :=
  match ops with
  | [] => (w, [])
  | o :: ops' =>
      let (w1, r) := exec o w in
      let (w2, rs) := run ops' w1 in
      (w2, r :: rs)
  end.

End Loader.

(** The world of a fresh facade. *)
Definition init_world (env : Env) (o : Overlay) : World :=
  mkWorld (new_loader env o) [] [] [] [].

(** ** Auxiliary notions for the proofs *)

(** The world with the namespace flag of the options set to [b]. *)
Definition set_ns (b : bool) (w : World) : World :=
  let o := options (loader w) in
  set_loader (mkLoader (mkOptions (cwd o) (verbose o) (logger o) (extensions o) b)
                       (extraArguments (loader w)) (files (loader w))) w.

(** The overlay with its namespace flag set to [b]. *)
Definition overlay_ns (b : bool) (o : Overlay) : Overlay :=
  mkOverlay (o_cwd o) (o_verbose o) (o_logger o) (o_extensions o) (Some b).

(** [m] does not read the namespace flag, nor changes it. *)
Definition Commutes {A} (m : M A) : Prop :=
  forall b w, m (set_ns b w) = (set_ns b (fst (m w)), snd (m w)).

(** [m] relates the world before and the world after by [P]. *)
Definition Inv (P : World -> World -> Prop) {A} (m : M A) : Prop :=
  forall w, P w (fst (m w)).

Definition call_args (c : call) : list jsval :=
  match c with
  | TCall _ args => args
  | TMethod _ _ _ args => args
  end.

(** Every export is a function ([typeof i === 'function']). *)
Definition all_functions (T : list export) : bool :=
  forallb (fun x => is_function (of_export x)) T.

(** Every discovered file loads, and exports functions only. *)
Definition files_load (env : Env) (fs : list string) : Prop :=
  forall f, In f fs -> exists T, require env f = inl T /\ all_functions T = true.

(** A handler call leaves the loader as it is, and every call it records
    receives [server], [socket] and the extra arguments. *)
Definition FireP (server socket : jsval) (w w' : World) : Prop :=
  loader w' = loader w /\
  exists new, trace w' = trace w ++ new /\
    Forall (fun c => call_args c = server :: socket :: extraArguments (loader w)) new.

(** What binding changes: the instances and the log only, the log by
    appending, and only when verbose. *)
Definition IntoP (w w' : World) : Prop :=
  loader w' = loader w /\ listeners w' = listeners w /\ trace w' = trace w /\
  (exists l, logs w' = logs w ++ l) /\
  (verbose (options (loader w)) = false -> logs w' = logs w).

(** ** Concrete configurations

    A project rooted at [/app] whose only directory is [/app/handlers];
    the classes start in state [0] and their [connection] method adds [1]. *)
Definition demo_env (listing : list string) (modules : string -> list export + string)
  : Env :=
  mkEnv "/app"
        (fun p => String.eqb p "/app/handlers")
        (fun p => String.eqb p "/app/handlers")
        (fun p => if String.eqb p "/app/handlers" then listing else [])
        modules (fun _ => 0%Z) (fun _ z => (z + 1)%Z).

(** [require] of a directory holding [a.js] only. *)
Definition only_a (T : list export) : string -> list export + string :=
  fun f => if String.eqb f "/app/handlers/a.js" then inl T
           else inr ("Cannot find module '" ++ f ++ "'")%string.

Definition demo_overlay (v : bool) : Overlay := mkOverlay None (Some v) None None None.

(** A loader whose file list is [fs]. *)
Definition world_with_files (env : Env) (v : bool) (fs : list string) : World :=
  mkWorld (mkLoader (make_options env (demo_overlay v)) [] fs) [] [] [] [].


(** What any operation of the facade changes: the options never, the file
    list, the extra arguments and the listeners only by appending, the log
    not at all when verbosity is off. *)
Definition Grows (w w' : World) : Prop :=
  options (loader w') = options (loader w) /\
  (exists l, files (loader w') = files (loader w) ++ l) /\
  (exists l, extraArguments (loader w') = extraArguments (loader w) ++ l) /\
  (exists l, listeners w' = listeners w ++ l) /\
  (verbose (options (loader w)) = false -> logs w' = logs w).

(** The export values of the class-shaped exports, in order. *)
Definition class_exports (T : list export) : list nat :=
  flat_map (fun x => match x with XClass c _ => [c] | _ => [] end) T.

(** The class of a class-shaped value. *)
Definition class_of (v : jsval) : list nat :=
  match v with VClass c _ => [c] | _ => [] end.

(** ** The monad *)

Lemma bind_ok {A B} (m : M A) (k : A -> M B) w w' a :
  m w = (w', Ok a) -> bind m k w = k a w'.
Proof. intro H; unfold bind; rewrite H; reflexivity. Qed.

Lemma bind_exc {A B} (m : M A) (k : A -> M B) w w' e :
  m w = (w', Exc e) -> bind m k w = (w', Exc e).
Proof. intro H; unfold bind; rewrite H; reflexivity. Qed.

(** *** Commutation with the namespace flag *)

Lemma ret_comm {A} (a : A) : Commutes (ret a).
Proof. intros b w; reflexivity. Qed.

Lemma throw_comm {A} (e : exn) : Commutes (@throw A e).
Proof. intros b w; reflexivity. Qed.

Lemma gets_comm {A} (f : World -> A) :
  (forall b w, f (set_ns b w) = f w) -> Commutes (gets f).
Proof. intros H b w; unfold gets; simpl; rewrite H; reflexivity. Qed.

Lemma modify_comm (f : World -> World) :
  (forall b w, f (set_ns b w) = set_ns b (f w)) -> Commutes (modify f).
Proof. intros H b w; unfold modify; simpl; rewrite H; reflexivity. Qed.

Lemma bind_comm {A B} (m : M A) (k : A -> M B) :
  Commutes m -> (forall a, Commutes (k a)) -> Commutes (bind m k).
Proof.
  intros Hm Hk b w; unfold bind; rewrite Hm.
  destruct (m w) as [w' [a|e]]; simpl; [apply Hk | reflexivity].
Qed.

Create HintDb comm.
#[local] Hint Resolve ret_comm throw_comm : comm.

Ltac comm :=
  repeat match goal with
  | |- Commutes (bind _ _) => apply bind_comm; [ | intro ]
  | |- Commutes (ret _) => apply ret_comm
  | |- Commutes (throw _) => apply throw_comm
  | |- Commutes (gets _) => apply gets_comm; intros; reflexivity
  | |- Commutes (opt _) => apply gets_comm; intros; reflexivity
  | |- Commutes (modify _) => apply modify_comm; intros; reflexivity
  | |- Commutes (if ?c then _ else _) => destruct c
  | |- Commutes (match ?x with _ => _ end) => destruct x
  | |- Commutes _ => solve [eauto with comm]
  end.

Section Namespace.
Variable env : Env.

Lemma log_comm msg lvl : Commutes (log msg lvl).
Proof. unfold log; comm. Qed.
#[local] Hint Resolve log_comm : comm.

Lemma when_entries_comm loc l : Commutes (when_entries loc l).
Proof.
  induction l as [|fn l IH]; simpl; [comm|].
  apply bind_comm; [|intros _; exact IH].
  unfold when_entry; comm.
Qed.
#[local] Hint Resolve when_entries_comm : comm.

Lemma when_comm d : Commutes (when_ env d).
Proof. unfold when_; comm. Qed.

Lemma withExtraArgument_comm xs : Commutes (withExtraArgument xs).
Proof. unfold withExtraArgument; comm. Qed.

Lemma new_instance_comm c : Commutes (new_instance env c).
Proof. unfold new_instance; comm. Qed.
#[local] Hint Resolve new_instance_comm : comm.

Lemma into_step_comm file k md fns : Commutes (into_step env file k md fns).
Proof. unfold into_step; comm. Qed.
#[local] Hint Resolve into_step_comm : comm.

Lemma into_loop_comm file fuel : forall k md fns,
  Commutes (into_loop env file fuel k md fns).
Proof.
  induction fuel as [|fuel IH]; intros k md fns; simpl; comm.
Qed.
#[local] Hint Resolve into_loop_comm : comm.

Lemma into_files_comm fs : forall fns, Commutes (into_files env fs fns).
Proof.
  induction fs as [|f fs IH]; intros fns; simpl; comm.
  unfold into_file; comm.
Qed.
#[local] Hint Resolve into_files_comm : comm.

Lemma into_comm s : Commutes (into env s).
Proof. unfold into; comm. Qed.

Lemma call_fn_comm fn args : Commutes (call_fn env fn args).
Proof. unfold call_fn; comm. Qed.
#[local] Hint Resolve call_fn_comm : comm.

Lemma run_handlers_comm s k fns : Commutes (run_handlers env s k fns).
Proof. induction fns; simpl; comm. Qed.
#[local] Hint Resolve run_handlers_comm : comm.

Lemma emit_listeners_comm s k ls : Commutes (emit_listeners env s k ls).
Proof. induction ls as [|[s' fns] ls IH]; simpl; comm. Qed.
#[local] Hint Resolve emit_listeners_comm : comm.

Lemma fire_comm s k : Commutes (fire env s k).
Proof. unfold fire; comm. Qed.

Lemma exec_comm o : Commutes (exec env o).
Proof.
  destruct o; simpl;
    [apply when_comm | apply withExtraArgument_comm | apply into_comm | apply fire_comm].
Qed.

Lemma run_set_ns ops : forall b w,
  run env ops (set_ns b w) = (set_ns b (fst (run env ops w)), snd (run env ops w)).
Proof.
  induction ops as [|o ops IH]; intros b w; simpl; [reflexivity|].
  rewrite exec_comm. destruct (exec env o w) as [w1 r]; simpl.
  rewrite IH. destruct (run env ops w1); reflexivity.
Qed.

End Namespace.

(** *** Invariants of computations *)

Section Invariants.
Variable P : World -> World -> Prop.
Hypothesis P_refl : forall w, P w w.
Hypothesis P_trans : forall w1 w2 w3, P w1 w2 -> P w2 w3 -> P w1 w3.

Lemma ret_inv {A} (a : A) : Inv P (ret a).
Proof. intro w; apply P_refl. Qed.

Lemma throw_inv {A} (e : exn) : Inv P (@throw A e).
Proof. intro w; apply P_refl. Qed.

Lemma gets_inv {A} (f : World -> A) : Inv P (gets f).
Proof. intro w; apply P_refl. Qed.

Lemma modify_inv (f : World -> World) : (forall w, P w (f w)) -> Inv P (modify f).
Proof. intros H w; apply H. Qed.

Lemma bind_inv {A B} (m : M A) (k : A -> M B) :
  Inv P m -> (forall a, Inv P (k a)) -> Inv P (bind m k).
Proof.
  intros Hm Hk w; unfold bind. specialize (Hm w).
  destruct (m w) as [w' [a|e]]; simpl in *; [|exact Hm].
  eapply P_trans; [exact Hm | apply Hk].
Qed.

End Invariants.

Ltac invt R T :=
  repeat match goal with
  | |- Inv _ (bind _ _) => apply (bind_inv _ T); [ | intro ]
  | |- Inv _ (ret _) => apply (ret_inv _ R)
  | |- Inv _ (throw _) => apply (throw_inv _ R)
  | |- Inv _ (gets _) => apply (gets_inv _ R)
  | |- Inv _ (opt _) => apply (gets_inv _ R)
  | |- Inv _ (modify _) => apply modify_inv; intro
  | |- Inv _ (if ?c then _ else _) => destruct c
  | |- Inv _ (match ?x with _ => _ end) => destruct x
  end.

(** ** The namespace flag *)

(** Claim C8: the namespace flag is never read: two facades whose
    configurations differ only in it, driven by the same operations, raise
    the same errors and end with the same files, extra arguments,
    listeners, instances, log and handler calls. *)
Theorem namespace_flag_unused (env : Env) (o : Overlay) (b1 b2 : bool) (ops : list op) :
  let (w1, r1) := run env ops (init_world env (overlay_ns b1 o)) in
  let (w2, r2) := run env ops (init_world env (overlay_ns b2 o)) in
  r1 = r2 /\ files (loader w1) = files (loader w2) /\
  extraArguments (loader w1) = extraArguments (loader w2) /\
  listeners w1 = listeners w2 /\ instances w1 = instances w2 /\
  logs w1 = logs w2 /\ trace w1 = trace w2.
Proof.
  assert (Hi : forall b, init_world env (overlay_ns b o) = set_ns b (init_world env o))
    by reflexivity.
  rewrite !Hi, !run_set_ns.
  destruct (run env ops (init_world env o)) as [w r]; simpl.
  repeat split.
Qed.

(** ** Dispatch *)

Lemma FireP_refl s k w : FireP s k w w.
Proof. split; [reflexivity|]. exists []; rewrite app_nil_r; split; auto. Qed.

Lemma FireP_trans s k w1 w2 w3 :
  FireP s k w1 w2 -> FireP s k w2 w3 -> FireP s k w1 w3.
Proof.
  intros [L1 [n1 [T1 F1]]] [L2 [n2 [T2 F2]]]. split; [congruence|].
  exists (n1 ++ n2). rewrite T2, T1, app_assoc. split; [reflexivity|].
  apply Forall_app; split; [exact F1|]. rewrite <- L1; exact F2.
Qed.

Lemma call_fn_fire env s k fn w :
  FireP s k w (fst (call_fn env fn (s :: k :: extraArguments (loader w)) w)).
Proof.
  destruct fn; simpl; try apply FireP_refl;
    (split; [reflexivity|]).
  - eexists; split; [reflexivity|]. repeat constructor.
  - eexists; split; [reflexivity|]. repeat constructor.
Qed.

Lemma run_handlers_fire env s k fns : Inv (FireP s k) (run_handlers env s k fns).
Proof.
  induction fns as [|fn fns IH]; intro w; simpl; [apply FireP_refl|].
  unfold bind at 1, gets at 1.
  pose proof (call_fn_fire env s k fn w) as H1.
  unfold bind.
  destruct (call_fn env fn (s :: k :: extraArguments (loader w)) w) as [w1 [u|e]];
    simpl in *; [|exact H1].
  eapply FireP_trans; [exact H1 | apply IH].
Qed.

Lemma emit_listeners_fire env s k ls : Inv (FireP s k) (emit_listeners env s k ls).
Proof.
  induction ls as [|[s' fns] ls IH]; simpl;
    [intro w; apply FireP_refl|].
  apply (bind_inv _ (FireP_trans s k)); [|intros _; exact IH].
  destruct (jsval_eq_dec s' s) as [->|_];
    [apply run_handlers_fire | intro w; apply FireP_refl].
Qed.

Lemma fire_fire env s k : Inv (FireP s k) (fire env s k).
Proof.
  unfold fire. apply (bind_inv _ (FireP_trans s k));
    [intro w; apply FireP_refl | intro; apply emit_listeners_fire].
Qed.

Lemma run_extra env xss : forall w,
  extraArguments (loader (fst (run env (map OpExtra xss) w)))
  = extraArguments (loader w) ++ concat xss.
Proof.
  induction xss as [|xs xss IH]; intro w; simpl; [rewrite app_nil_r; reflexivity|].
  destruct (run env (map OpExtra xss) _) as [w2 rs] eqn:E; simpl.
  replace w2 with (fst (run env (map OpExtra xss)
                        (set_extra (extraArguments (loader w) ++ xs) w))) by (rewrite E; reflexivity).
  rewrite IH; simpl. rewrite app_assoc; reflexivity.
Qed.

(** Claim C6: from a fresh facade, the extra arguments after a sequence of
    [withExtraArgument] calls are the concatenation of their arguments in
    call order; and on a connection event every handler call receives the
    server, the socket and then exactly that list. *)
Theorem extra_arguments_concat_and_passed (env : Env) (o : Overlay)
    (xss : list (list jsval)) (server socket : jsval) (w : World) :
  extraArguments (loader (fst (run env (map OpExtra xss) (init_world env o))))
    = concat xss /\
  exists new, trace (fst (fire env server socket w)) = trace w ++ new /\
    Forall (fun c => call_args c = server :: socket :: extraArguments (loader w)) new.
Proof.
  split; [apply run_extra|].
  apply (fire_fire env server socket w).
Qed.

Example extra_arguments_example :
  extraArguments (loader (fst (run (mkEnv "/" (fun _ => false) (fun _ => false)
      (fun _ => []) (fun _ => inr "") (fun _ => 0%Z) (fun _ z => z))
    [OpExtra [VNum 1; VNum 2]; OpExtra [VNum 3]]
    (init_world (mkEnv "/" (fun _ => false) (fun _ => false)
      (fun _ => []) (fun _ => inr "") (fun _ => 0%Z) (fun _ z => z))
      (mkOverlay None None None None None)))))
  = [VNum 1; VNum 2; VNum 3].
Proof. reflexivity. Qed.

(** ** Binding *)

Lemma IntoP_refl w : IntoP w w.
Proof. repeat split; try reflexivity. exists []; rewrite app_nil_r; reflexivity. Qed.

Lemma IntoP_trans w1 w2 w3 : IntoP w1 w2 -> IntoP w2 w3 -> IntoP w1 w3.
Proof.
  intros [L1 [S1 [T1 [[l1 G1] V1]]]] [L2 [S2 [T2 [[l2 G2] V2]]]].
  repeat split; try congruence.
  - exists (l1 ++ l2). rewrite G2, G1, app_assoc; reflexivity.
  - intro Hv. rewrite V2, V1 by (try rewrite L1; exact Hv). reflexivity.
Qed.

Lemma log_into msg lvl : Inv IntoP (log msg lvl).
Proof.
  intro w; unfold log, bind, opt, gets; simpl.
  destruct (verbose (options (loader w))) eqn:V; simpl; [|apply IntoP_refl].
  repeat split; [eexists; reflexivity | congruence].
Qed.

Lemma new_instance_into env c : Inv IntoP (new_instance env c).
Proof.
  intro w; unfold new_instance, bind, gets, modify, ret; simpl.
  repeat split; try (intros; reflexivity); exists []; rewrite app_nil_r; reflexivity.
Qed.

Lemma into_step_into env file k md fns : Inv IntoP (into_step env file k md fns).
Proof.
  unfold into_step.
  destruct (negb (is_function (nth k md (VNum 0)))); [apply (throw_inv _ IntoP_refl)|].
  apply (bind_inv _ IntoP_trans).
  - destruct (is_class (nth k md (VNum 0))); [|apply (ret_inv _ IntoP_refl)].
    destruct (nth (index_of _ md) md (VNum 0)); try apply (throw_inv _ IntoP_refl).
    apply (bind_inv _ IntoP_trans); [apply new_instance_into|intro inst].
    destruct has_connection; [apply (ret_inv _ IntoP_refl)|].
    apply (bind_inv _ IntoP_trans); [apply log_into|intros; apply (ret_inv _ IntoP_refl)].
  - intro md'. apply (bind_inv _ IntoP_trans); [apply log_into|intros; apply (ret_inv _ IntoP_refl)].
Qed.

Lemma into_loop_into env file fuel : forall k md fns,
  Inv IntoP (into_loop env file fuel k md fns).
Proof.
  induction fuel as [|fuel IH]; intros k md fns; simpl; [apply (ret_inv _ IntoP_refl)|].
  apply (bind_inv _ IntoP_trans); [apply into_step_into|intros [md' fns']; apply IH].
Qed.

Lemma into_files_into env fs : forall fns, Inv IntoP (into_files env fs fns).
Proof.
  induction fs as [|f fs IH]; intro fns; simpl; [apply (ret_inv _ IntoP_refl)|].
  apply (bind_inv _ IntoP_trans); [|intro; apply IH].
  unfold into_file. destruct (require env f) as [T|msg];
    [apply into_loop_into | apply (throw_inv _ IntoP_refl)].
Qed.

(** [into] keeps the loader, and registers at most the one listener. *)
Lemma into_loader env server w :
  loader (fst (into env server w)) = loader w /\
  (listeners (fst (into env server w)) = listeners w \/
   exists fns, listeners (fst (into env server w)) = listeners w ++ [(server, fns)]).
Proof.
  pose proof (into_files_into env (files (loader w)) [] w) as [L [S _]].
  unfold into, bind, gets, modify; simpl.
  destruct (into_files env (files (loader w)) [] w) as [w1 [fns|e]];
    simpl in *; split; try assumption.
  - right. exists fns. rewrite S; reflexivity.
  - left; assumption.
Qed.

(** Claim C9: the extra arguments are read when the event fires: after a
    bind and a later [withExtraArgument], the listeners are those of the bind
    and every handler call of the next connection event receives the extra
    arguments accumulated up to the event, the later ones included. *)
Theorem extra_arguments_read_at_event (env : Env) (server socket : jsval)
    (xs : list jsval) (w : World) :
  let w1 := fst (into env server w) in
  let w2 := fst (withExtraArgument xs w1) in
  listeners w2 = listeners w1 /\
  exists new, trace (fst (fire env server socket w2)) = trace w2 ++ new /\
    Forall (fun c => call_args c = server :: socket :: (extraArguments (loader w) ++ xs)) new.
Proof.
  intros w1 w2. split; [reflexivity|].
  destruct (fire_fire env server socket w2) as [_ H].
  replace (extraArguments (loader w) ++ xs) with (extraArguments (loader w2)); [exact H|].
  subst w2 w1. simpl. destruct (into_loader env server w) as [L _]. rewrite L; reflexivity.
Qed.

(** *** Lists *)

Lemma nth_index_of v l d : In v l -> nth (index_of v l) l d = v.
Proof.
  induction l as [|x l IH]; simpl; [tauto|].
  intro Hin; destruct (jsval_eq_dec x v) as [E|N]; [exact E|].
  destruct Hin as [E|H]; [congruence | auto].
Qed.

Lemma index_of_le v l d k : k < length l -> nth k l d = v -> index_of v l <= k.
Proof.
  revert k; induction l as [|x l IH]; intros k Hk Hn; simpl in *; [lia|].
  destruct (jsval_eq_dec x v); [lia|].
  destruct k as [|k]; [congruence|]. specialize (IH k ltac:(lia) Hn). lia.
Qed.

Lemma set_nth_length {A} n (v : A) l : length (set_nth n v l) = length l.
Proof. revert n; induction l as [|x l IH]; intros [|n]; simpl; auto. Qed.

Lemma nth_set_nth_other {A} n (v : A) l j d :
  n <> j -> nth j (set_nth n v l) d = nth j l d.
Proof.
  revert n j; induction l as [|x l IH]; intros [|n] [|j] H; simpl;
    first [reflexivity | congruence | apply IH; lia].
Qed.

Lemma set_nth_Forall {A} (P : A -> Prop) n v l :
  P v -> Forall P l -> Forall P (set_nth n v l).
Proof.
  intros Hv Hl; revert n; induction Hl; intros [|n]; simpl; constructor; auto.
Qed.

Lemma all_functions_Forall T :
  all_functions T = true -> Forall (fun x => is_function x = true) (map of_export T).
Proof.
  unfold all_functions; intro H; pose proof (proj1 (forallb_forall _ T) H) as H'.
  apply Forall_forall; intros x Hx. apply in_map_iff in Hx as [y [<- Hy]]. auto.
Qed.

(** *** Binding without errors *)

Lemma into_step_ok env file k md fns w c :
  k < length md -> Forall (fun x => is_function x = true) md ->
  exists w' md',
    into_step env file k md fns w = (w', Ok (md', fns ++ md')) /\
    length md' = length md /\ Forall (fun x => is_function x = true) md' /\
    (forall j, k < j -> nth j md' (VNum 0) = nth j md (VNum 0)) /\
    (verbose (options (loader w)) = true -> nth k md (VNum 0) = VClass c false ->
       In (logger (options (loader w)), Error, "cannot load route") (logs w')).
Proof.
  intros Hk Hf.
  assert (Hin : In (nth k md (VNum 0)) md) by (apply nth_In; lia).
  assert (Hfun : is_function (nth k md (VNum 0)) = true)
    by (rewrite Forall_forall in Hf; auto).
  assert (Hidx := index_of_le _ md (VNum 0) k Hk eq_refl).
  assert (Hnth := nth_index_of _ md (VNum 0) Hin).
  unfold into_step. rewrite Hfun. simpl negb. cbv iota.
  destruct (nth k md (VNum 0)) as [f|c' b|c' n|n|z|s] eqn:Ei; try discriminate Hfun.
  - simpl. cbv [bind ret log opt gets modify]; simpl.
    destruct (verbose (options (loader w))); simpl; eexists _, _; (split; [reflexivity|]);
      repeat split; auto; intros; discriminate.
  - simpl. rewrite Hnth. cbv [bind ret log opt gets modify new_instance]; simpl.
    destruct b; destruct (verbose (options (loader w))) eqn:V; simpl; rewrite ?V; simpl; rewrite ?V; simpl;
      eexists _, _; (split; [reflexivity|]).
    + split; [apply set_nth_length|]. split; [apply set_nth_Forall; auto|].
      split; [intros j Hj; apply nth_set_nth_other; lia|]. intros _ H; discriminate H.
    + split; [apply set_nth_length|]. split; [apply set_nth_Forall; auto|].
      split; [intros j Hj; apply nth_set_nth_other; lia|]. intros H; discriminate H.
    + repeat split; auto. intros _ _.
      apply in_or_app; left; apply in_or_app; right; left; reflexivity.
    + repeat split; auto. intros H; congruence.
  - simpl. cbv [bind ret log opt gets modify]; simpl.
    destruct (verbose (options (loader w))); simpl; eexists _, _; (split; [reflexivity|]);
      repeat split; auto; intros; discriminate.
Qed.

Lemma into_loop_ok env file c : forall fuel k md fns w,
  k + fuel = length md -> Forall (fun x => is_function x = true) md ->
  exists w' fns',
    into_loop env file fuel k md fns w = (w', Ok fns') /\
    (verbose (options (loader w)) = true ->
     (exists j, k <= j < k + fuel /\ nth j md (VNum 0) = VClass c false) ->
     In (logger (options (loader w)), Error, "cannot load route") (logs w')).
Proof.
  induction fuel as [|fuel IH]; intros k md fns w Hk Hf.
  - exists w, fns; split; [reflexivity|]. intros _ [j [Hj _]]; lia.
  - destruct (into_step_ok env file k md fns w c ltac:(lia) Hf)
      as [w1 [md1 [E [Hl [Hf1 [Hn Hlog]]]]]].
    destruct (IH (S k) md1 (fns ++ md1) w1 ltac:(lia) Hf1) as [w2 [fns2 [E2 L2]]].
    exists w2, fns2. split; [simpl; rewrite (bind_ok _ _ _ _ _ E); exact E2|].
    pose proof (into_step_into env file k md fns w) as P1. rewrite E in P1; simpl in P1.
    pose proof (into_loop_into env file fuel (S k) md1 (fns ++ md1) w1) as P2.
    rewrite E2 in P2; simpl in P2.
    destruct P1 as [L1 _]. destruct P2 as [_ [_ [_ [[l G2] _]]]].
    intros V [j [Hj Hc]].
    destruct (Nat.eq_dec j k) as [->|Hne];
      [rewrite G2; apply in_or_app; left; exact (Hlog V Hc)|].
    rewrite <- L1. apply L2; [rewrite L1; exact V|].
    exists j; split; [lia|]. rewrite Hn by lia. exact Hc.
Qed.

Lemma into_files_ok env c : forall fs fns w,
  files_load env fs ->
  exists w' fns',
    into_files env fs fns w = (w', Ok fns') /\
    (verbose (options (loader w)) = true ->
     (exists f T, In f fs /\ require env f = inl T /\ In (XClass c false) T) ->
     In (logger (options (loader w)), Error, "cannot load route") (logs w')).
Proof.
  induction fs as [|f fs IH]; intros fns w Hl.
  - exists w, fns; split; [reflexivity|]. intros _ [f [T [[] _]]].
  - destruct (Hl f (or_introl eq_refl)) as [T [HT HTf]].
    destruct (into_loop_ok env f c (length (map of_export T)) 0 (map of_export T) fns w
                eq_refl (all_functions_Forall T HTf)) as [w1 [fns1 [E1 L1]]].
    assert (E1' : into_file env f fns w = (w1, Ok fns1))
      by (unfold into_file; rewrite HT; exact E1).
    destruct (IH fns1 w1 (fun g Hg => Hl g (or_intror Hg))) as [w2 [fns2 [E2 L2]]].
    exists w2, fns2. split; [simpl; rewrite (bind_ok _ _ _ _ _ E1'); exact E2|].
    pose proof (into_loop_into env f (length (map of_export T)) 0 (map of_export T) fns w)
      as P1.
    rewrite E1 in P1; simpl in P1.
    pose proof (into_files_into env fs fns1 w1) as P2. rewrite E2 in P2; simpl in P2.
    destruct P1 as [Lw _]. destruct P2 as [_ [_ [_ [[l G2] _]]]].
    intros V [g [T' [[<-|Hg] [HT' Hc]]]].
    + rewrite G2. apply in_or_app; left. apply L1; [exact V|].
      rewrite HT in HT'. injection HT' as <-.
      destruct (In_nth (map of_export T) (VClass c false) (VNum 0)) as [j [Hj Hj']];
        [apply (in_map of_export _ _ Hc)|].
      exists j; split; [lia | exact Hj'].
    + rewrite <- Lw. apply L2; [rewrite Lw; exact V|]. exists g, T'; auto.
Qed.

(** ** Claims about binding and dispatch *)

(** Claim C1 (code_bug): [fns = fns.concat(mod)] sits inside the loop over
    the exports of a file, so the exports are appended once per export: for
    [a.js] exporting two plain functions [a] (1) and [b] (2), one connection
    event calls [a], [b], [a], [b]. *)
Theorem handlers_appended_per_export :
  let env := demo_env ["a.js"] (only_a [XFun 1; XFun 2]) in
  let (w, rs) := run env [OpWhen "handlers"; OpInto (VObj 0); OpFire (VObj 0) (VObj 1)]
                     (init_world env (demo_overlay false)) in
  rs = [Ok tt; Ok tt; Ok tt] /\
  listeners w = [(VObj 0, [VFun 1; VFun 2; VFun 1; VFun 2])] /\
  trace w = [TCall 1 [VObj 0; VObj 1]; TCall 2 [VObj 0; VObj 1];
             TCall 1 [VObj 0; VObj 1]; TCall 2 [VObj 0; VObj 1]].
Proof. vm_compute. repeat split. Qed.

(** Claim C2, as stated: with verbosity off (the default), binding a file
    that exports a class without [connection] logs nothing at all. *)
Lemma class_without_connection_silent :
  let env := demo_env ["a.js"] (only_a [XClass 3 false]) in
  let (w, rs) := run env [OpWhen "handlers"; OpInto (VObj 0)]
                     (init_world env (demo_overlay false)) in
  rs = [Ok tt; Ok tt] /\ logs w = [].
Proof. vm_compute. split; reflexivity. Qed.

(** Claim C2, amended: when every discovered file loads and exports
    functions only, binding a file that exports a class without a
    [connection] member does not raise; it logs the error-level message
    [cannot load route] when verbosity is on, and logs nothing when it is
    off. *)
Theorem class_without_connection_logged (env : Env) (server : jsval) (w : World)
    (f : string) (T : list export) (c : nat) :
  files_load env (files (loader w)) ->
  In f (files (loader w)) -> require env f = inl T -> In (XClass c false) T ->
  snd (into env server w) = Ok tt /\
  (verbose (options (loader w)) = true ->
   In (logger (options (loader w)), Error, "cannot load route")
      (logs (fst (into env server w)))) /\
  (verbose (options (loader w)) = false -> logs (fst (into env server w)) = logs w).
Proof.
  intros Hl Hf HT Hc.
  destruct (into_files_ok env c (files (loader w)) [] w Hl) as [w1 [fns [E L]]].
  pose proof (into_files_into env (files (loader w)) [] w) as P.
  rewrite E in P; simpl in P. destruct P as [_ [_ [_ [_ Hq]]]].
  assert (Ei : into env server w = (add_listener (server, fns) w1, Ok tt))
    by (unfold into, bind, gets, modify; simpl; rewrite E; reflexivity).
  rewrite Ei; simpl. split; [reflexivity|]. split; [|exact Hq].
  intro V. apply L; [exact V|]. exists f, T; auto.
Qed.

Lemma class_without_connection_logged_witness :
  let env := demo_env ["a.js"] (only_a [XClass 3 false]) in
  let w := world_with_files env true ["/app/handlers/a.js"] in
  snd (into env (VObj 0) w) = Ok tt /\
  (verbose (options (loader w)) = true ->
   In (logger (options (loader w)), Error, "cannot load route")
      (logs (fst (into env (VObj 0) w)))) /\
  (verbose (options (loader w)) = false -> logs (fst (into env (VObj 0) w)) = logs w).
Proof.
  intros env w.
  apply (class_without_connection_logged env (VObj 0) w "/app/handlers/a.js"
           [XClass 3 false] 3).
  - intros g [<-|[]]. exists [XClass 3 false]; split; reflexivity.
  - left; reflexivity.
  - reflexivity.
  - left; reflexivity.
Defined.

(** Claim C3: when the files before [f] load and export functions only and
    [f] fails to load with message [cause], binding raises
    [Failed to require <f> because: <cause>] and registers no listener, so
    no handler of the files before it is kept. *)
Theorem load_failure_aborts_bind (env : Env) (server : jsval) (w : World)
    (pre : list string) (f : string) (post : list string) (cause : string) :
  files (loader w) = pre ++ f :: post ->
  files_load env pre -> require env f = inr cause ->
  snd (into env server w) = Exc (ErrMsg ("Failed to require " ++ f ++ " because: " ++ cause)) /\
  listeners (fst (into env server w)) = listeners w.
Proof.
  intros Hfs Hl Hf.
  assert (H : forall pre fns w, files_load env pre ->
            exists w', into_files env (pre ++ f :: post) fns w
                       = (w', Exc (ErrMsg ("Failed to require " ++ f ++ " because: " ++ cause)))
                       /\ listeners w' = listeners w).
  { clear Hfs Hl w pre. induction pre as [|g pre IH]; intros fns w Hl.
    - exists w; simpl. unfold bind, into_file; rewrite Hf; split; reflexivity.
    - destruct (into_files_ok env 0 [g] fns w) as [w1 [fns1 [E1 _]]].
      { intros h [<-|[]]; apply Hl; left; reflexivity. }
      simpl in E1. unfold bind at 1 in E1.
      destruct (into_file env g fns w) as [w0 [fns0|e]] eqn:E0; [|discriminate].
      simpl in E1. injection E1 as <- <-.
      destruct (IH fns0 w0 (fun h Hh => Hl h (or_intror Hh))) as [w2 [E2 S2]].
      exists w2. simpl. rewrite (bind_ok _ _ _ _ _ E0). split; [exact E2|].
      pose proof (into_files_into env [g] fns w) as P.
      simpl in P. unfold bind at 1 in P. rewrite E0 in P. destruct P as [_ [S _]].
      simpl in S. congruence. }
  destruct (H pre [] w Hl) as [w' [E S]].
  assert (Ei : into env server w
                = (w', Exc (ErrMsg ("Failed to require " ++ f ++ " because: " ++ cause))))
    by (unfold into, bind, gets; simpl; rewrite Hfs, E; reflexivity).
  rewrite Ei; split; [reflexivity | exact S].
Qed.

Lemma load_failure_aborts_bind_witness :
  let env := demo_env ["a.js"; "b.js"] (only_a [XFun 1]) in
  let w := world_with_files env false ["/app/handlers/a.js"; "/app/handlers/b.js"] in
  snd (into env (VObj 0) w)
    = Exc (ErrMsg ("Failed to require " ++ "/app/handlers/b.js" ++ " because: "
                   ++ "Cannot find module '/app/handlers/b.js'")) /\
  listeners (fst (into env (VObj 0) w)) = listeners w.
Proof.
  intros env w.
  apply (load_failure_aborts_bind env (VObj 0) w ["/app/handlers/a.js"]
           "/app/handlers/b.js" [] "Cannot find module '/app/handlers/b.js'").
  - reflexivity.
  - intros g [<-|[]]. exists [XFun 1]; split; reflexivity.
  - reflexivity.
Defined.

(** Claim C5 (code_bug): the class is instantiated once and its bound
    [connection] method is in the handler list, but when another export
    precedes the class in its file, [fns.concat(mod)] has already copied
    the raw class into the handler list (same misplaced line as C1): every
    connection event calls the plain function, then raises calling the
    class without [new], and never reaches the bound method. *)
Theorem class_handler_after_function :
  let env := demo_env ["a.js"] (only_a [XFun 1; XClass 5 true]) in
  let (w, rs) := run env [OpWhen "handlers"; OpInto (VObj 0);
                          OpFire (VObj 0) (VObj 1); OpFire (VObj 0) (VObj 2)]
                     (init_world env (demo_overlay false)) in
  rs = [Ok tt; Ok tt;
        Exc (TypeErr "Class constructor cannot be invoked without 'new'");
        Exc (TypeErr "Class constructor cannot be invoked without 'new'")] /\
  instances w = [(5, 0%Z)] /\
  listeners w = [(VObj 0, [VFun 1; VClass 5 true; VFun 1; VBound 5 0])] /\
  trace w = [TCall 1 [VObj 0; VObj 1]; TCall 1 [VObj 0; VObj 2]].
Proof. vm_compute. repeat split. Qed.

(** When the class is the only export of its file, its one instance
    handles every event and keeps its state from one event to the next. *)
Example class_handler_alone :
  let env := demo_env ["a.js"] (only_a [XClass 5 true]) in
  let (w, rs) := run env [OpWhen "handlers"; OpInto (VObj 0);
                          OpFire (VObj 0) (VObj 1); OpFire (VObj 0) (VObj 2)]
                     (init_world env (demo_overlay false)) in
  rs = [Ok tt; Ok tt; Ok tt; Ok tt] /\ instances w = [(5, 2%Z)] /\
  trace w = [TMethod 5 0 0 [VObj 0; VObj 1]; TMethod 5 0 1 [VObj 0; VObj 2]].
Proof. vm_compute. repeat split. Qed.

(** ** Claims about scanning *)

Lemma list_ascii_of_string_append s1 s2 :
  list_ascii_of_string (s1 ++ s2) = list_ascii_of_string s1 ++ list_ascii_of_string s2.
Proof. induction s1 as [|a s1 IH]; simpl; [reflexivity | rewrite IH; reflexivity]. Qed.

Lemma ext_match_trailing_dot name : ext_match (name ++ ".")%string = None.
Proof.
  unfold ext_match. rewrite list_ascii_of_string_append, rev_app_distr. reflexivity.
Qed.

Lemma when_entries_raises loc l : forall w,
  (exists fn, In fn l /\ ext_match fn = None) ->
  exists e, snd (when_entries loc l w) = Exc e.
Proof.
  induction l as [|fn l IH]; intros w [g [Hg Hn]]; [destruct Hg|].
  simpl. unfold bind at 1.
  destruct (when_entry loc fn w) as [w1 [u|e]] eqn:E; [|exists e; reflexivity].
  destruct Hg as [<-|Hg].
  - unfold when_entry in E. rewrite Hn in E. discriminate E.
  - apply IH. exists g; auto.
Qed.

(** Claim C10: when the scanned directory exists and lists a name ending
    with [.], [/[^.]+$/.exec] returns [null], and [when] raises instead of
    skipping the entry. *)
Theorem scan_trailing_dot_raises (env : Env) (dirname : string) (w : World)
    (name : string) :
  let location := join (cwd (options (loader w))) dirname in
  fs_exists env location = true -> fs_is_directory env location = true ->
  In (name ++ ".")%string (fs_readdir env location) ->
  exists e, snd (when_ env dirname w) = Exc e.
Proof.
  intros location He Hd Hin.
  assert (E : when_ env dirname w = when_entries location (fs_readdir env location) w).
  { subst location. unfold when_, bind, opt, gets; simpl. rewrite He, Hd. reflexivity. }
  rewrite E. apply when_entries_raises.
  exists (name ++ ".")%string; split; [exact Hin | apply ext_match_trailing_dot].
Qed.

Lemma scan_trailing_dot_raises_witness :
  let env := demo_env ["a.js"; "b."] (only_a []) in
  let w := init_world env (demo_overlay false) in
  let location := join (cwd (options (loader w))) "handlers" in
  (fs_exists env location = true /\ fs_is_directory env location = true /\
   In ("b" ++ ".")%string (fs_readdir env location)) /\
  exists e, snd (when_ env "handlers" w) = Exc e.
Proof.
  intros env w location.
  assert (He : fs_exists env location = true) by reflexivity.
  assert (Hd : fs_is_directory env location = true) by reflexivity.
  assert (Hin : In ("b" ++ ".")%string (fs_readdir env location)) by (simpl; auto).
  split; [auto|].
  exact (scan_trailing_dot_raises env "handlers" w "b" He Hd Hin).
Defined.

(** Claim C4 (code_bug): a listing mixing names with and without an
    accepted extension makes [when] raise as soon as one name ends with
    [.]: [a.js] is already appended, [b.] raises a [TypeError] instead of
    being skipped as a name whose extension is not accepted. *)
Theorem scan_listing_with_trailing_dot :
  let env := demo_env ["a.js"; "b."; "c.js"] (only_a []) in
  let (w, rs) := run env [OpWhen "handlers"] (init_world env (demo_overlay false)) in
  rs = [Exc (TypeErr "object null is not iterable")] /\
  files (loader w) = ["/app/handlers/a.js"].
Proof. vm_compute. split; reflexivity. Qed.



(** Claim C7, as stated: with verbosity off (the default), scanning a
    directory that does not exist logs nothing. *)
Lemma scan_missing_silent :
  let env := demo_env [] (only_a []) in
  let (w, rs) := run env [OpWhen "missing"] (init_world env (demo_overlay false)) in
  rs = [Ok tt] /\ logs w = [] /\ files (loader w) = [].
Proof. vm_compute. repeat split. Qed.

(** Claim C7, amended: when the resolved location does not exist or is not
    a directory, [when] does not raise and changes nothing but the log, to
    which it adds one error-level message when verbosity is on: the file
    list, hence any later bind, is as before the call. *)
Theorem scan_missing_location_soft (env : Env) (dirname : string) (w : World) :
  let location := join (cwd (options (loader w))) dirname in
  fs_exists env location = false \/ fs_is_directory env location = false ->
  exists msg, when_ env dirname w =
    (if verbose (options (loader w))
     then add_log (logger (options (loader w)), Error, msg) w else w, Ok tt).
Proof.
  intros location H. subst location.
  unfold when_, bind at 1, opt, gets; simpl.
  destruct (fs_exists env _) eqn:E; simpl.
  - destruct H as [H|H]; [congruence|]. rewrite H; simpl.
    eexists. cbv [log bind opt gets modify ret]. destruct (verbose _); reflexivity.
  - eexists. cbv [log bind opt gets modify ret]. destruct (verbose _); reflexivity.
Qed.

Lemma scan_missing_location_soft_witness :
  let env := demo_env [] (only_a []) in
  let w := init_world env (demo_overlay true) in
  (fs_exists env (join (cwd (options (loader w))) "missing") = false) /\
  exists msg, when_ env "missing" w =
    (if verbose (options (loader w))
     then add_log (logger (options (loader w)), Error, msg) w else w, Ok tt).
Proof.
  intros env w. split; [reflexivity|].
  apply (scan_missing_location_soft env "missing" w). left; reflexivity.
Defined.

(** ** Further properties of the loader *)

(** *** What the operations change *)

Lemma Grows_refl w : Grows w w.
Proof.
  repeat split; try (exists []; rewrite app_nil_r); reflexivity.
Qed.

Lemma Grows_trans w1 w2 w3 : Grows w1 w2 -> Grows w2 w3 -> Grows w1 w3.
Proof.
  intros [O1 [[f1 F1] [[x1 X1] [[l1 L1] V1]]]] [O2 [[f2 F2] [[x2 X2] [[l2 L2] V2]]]].
  split; [congruence|].
  split; [exists (f1 ++ f2); rewrite F2, F1, app_assoc; reflexivity|].
  split; [exists (x1 ++ x2); rewrite X2, X1, app_assoc; reflexivity|].
  split; [exists (l1 ++ l2); rewrite L2, L1, app_assoc; reflexivity|].
  intro V. rewrite V2, V1 by (try rewrite O1; exact V). reflexivity.
Qed.

Lemma IntoP_Grows w w' : IntoP w w' -> Grows w w'.
Proof.
  intros [L [S [_ [_ V]]]]. unfold Grows. rewrite L, S.
  repeat split; try (exists []; rewrite app_nil_r; reflexivity).
  intro Hv; apply V; exact Hv.
Qed.

Ltac grows_solve :=
  unfold Grows; simpl; repeat split;
  first [ reflexivity
        | exists []; rewrite app_nil_r; reflexivity
        | eexists; reflexivity
        | intros; reflexivity ].

Lemma log_grows msg lvl : Inv Grows (log msg lvl).
Proof. intro w; apply IntoP_Grows, log_into. Qed.

Lemma when_entry_grows loc fn : Inv Grows (when_entry loc fn).
Proof.
  intro w; unfold when_entry.
  destruct (ext_match fn) as [e|]; [|apply Grows_refl].
  cbv [bind opt gets modify ret].
  destruct (negb (includes (extensions (options (loader w))) e)); [apply log_grows|].
  destruct (starts_with_dot fn); [apply log_grows|].
  grows_solve.
Qed.

Lemma when_grows env d : Inv Grows (when_ env d).
Proof.
  unfold when_. apply (bind_inv _ Grows_trans); [apply (gets_inv _ Grows_refl)|intro c].
  destruct (negb _); [apply log_grows|]. destruct (negb _); [apply log_grows|].
  induction (fs_readdir env _) as [|fn l IH]; simpl; [apply (ret_inv _ Grows_refl)|].
  apply (bind_inv _ Grows_trans); [apply when_entry_grows | intros _; exact IH].
Qed.

Lemma withExtraArgument_grows xs : Inv Grows (withExtraArgument xs).
Proof. intro w; grows_solve. Qed.

Lemma into_grows env s : Inv Grows (into env s).
Proof.
  unfold into. apply (bind_inv _ Grows_trans); [apply (gets_inv _ Grows_refl)|intro fs].
  apply (bind_inv _ Grows_trans);
    [intro w; apply IntoP_Grows, into_files_into | intro fns; intro w; grows_solve].
Qed.

Lemma fire_grows env s k : Inv Grows (fire env s k).
Proof.
  unfold fire. apply (bind_inv _ Grows_trans); [apply (gets_inv _ Grows_refl)|intro ls].
  induction ls as [|[s' fns] ls IH]; simpl; [apply (ret_inv _ Grows_refl)|].
  apply (bind_inv _ Grows_trans); [|intros _; exact IH].
  destruct (jsval_eq_dec s' s); [|apply (ret_inv _ Grows_refl)].
  induction fns as [|fn fns IHf]; simpl; [apply (ret_inv _ Grows_refl)|].
  apply (bind_inv _ Grows_trans); [apply (gets_inv _ Grows_refl)|intro xs].
  apply (bind_inv _ Grows_trans); [|intros _; exact IHf].
  destruct fn; simpl; invt Grows_refl Grows_trans; grows_solve.
Qed.

Lemma run_grows env ops : forall w, Grows w (fst (run env ops w)).
Proof.
  induction ops as [|o ops IH]; intro w; simpl; [apply Grows_refl|].
  assert (H1 : Grows w (fst (exec env o w))).
  { destruct o; [apply when_grows | apply withExtraArgument_grows
                | apply into_grows | apply fire_grows]. }
  destruct (exec env o w) as [w1 r]. destruct (run env ops w1) as [w2 rs] eqn:E.
  simpl in *. eapply Grows_trans; [exact H1|]. specialize (IH w1). rewrite E in IH. exact IH.
Qed.

(** The options of a facade are never changed by any sequence of
    operations: the configuration is fixed at construction. *)
Theorem options_never_change (env : Env) (ops : list op) (w : World) :
  options (loader (fst (run env ops w))) = options (loader w).
Proof. apply run_grows. Qed.

(** With verbosity off, no sequence of operations writes to the log. *)
Theorem silent_unless_verbose (env : Env) (ops : list op) (w : World) :
  verbose (options (loader w)) = false -> logs (fst (run env ops w)) = logs w.
Proof. apply run_grows. Qed.

Lemma silent_unless_verbose_witness :
  let env := demo_env ["a.js"; "b.txt"; ".c.js"] (only_a [XFun 1; XClass 2 false]) in
  let w := init_world env (demo_overlay false) in
  verbose (options (loader w)) = false /\
  logs (fst (run env [OpWhen "handlers"; OpWhen "missing"; OpInto (VObj 0);
                      OpFire (VObj 0) (VObj 1)] w)) = logs w.
Proof.
  intros env w. split; [reflexivity|]. apply silent_unless_verbose. reflexivity.
Defined.

(** The file list, the extra arguments and the listeners are append-only:
    after any sequence of operations each one extends what it was. *)
Theorem lists_append_only (env : Env) (ops : list op) (w : World) :
  let w' := fst (run env ops w) in
  (exists l, files (loader w') = files (loader w) ++ l) /\
  (exists l, extraArguments (loader w') = extraArguments (loader w) ++ l) /\
  (exists l, listeners w' = listeners w ++ l).
Proof.
  intro w'. destruct (run_grows env ops w) as [_ [F [X [L _]]]]. auto.
Qed.

(** Two [withExtraArgument] calls in a row amount to one call with both
    argument lists, in order. *)
Theorem withExtraArgument_twice (env : Env) (xs ys : list jsval) (w : World) :
  run env [OpExtra xs; OpExtra ys] w = (fst (withExtraArgument (xs ++ ys) w), [Ok tt; Ok tt]).
Proof.
  cbv [run exec withExtraArgument bind gets modify]; simpl.
  rewrite app_assoc. reflexivity.
Qed.





(** *** Scanning *)

Lemma string_of_list_ascii_app l1 l2 :
  string_of_list_ascii (l1 ++ l2)
  = (string_of_list_ascii l1 ++ string_of_list_ascii l2)%string.
Proof. induction l1 as [|a l1 IH]; simpl; [reflexivity | rewrite IH; reflexivity]. Qed.

(** [/[^.]+$/.exec(filename)] returns [null] exactly for the empty name and
    the names ending with a dot. *)
Theorem ext_match_null_iff (filename : string) :
  ext_match filename = None <->
  filename = EmptyString \/ exists p, filename = (p ++ ".")%string.
Proof.
  split.
  - unfold ext_match. intro H.
    rewrite <- (string_of_list_ascii_of_string filename).
    destruct (List.rev (list_ascii_of_string filename)) as [|c r] eqn:E.
    + left. apply (f_equal (@List.rev ascii)) in E. rewrite rev_involutive in E.
      rewrite E; reflexivity.
    + simpl in H. destruct (Ascii.eqb c dot) eqn:D; [|discriminate H].
      apply Ascii.eqb_eq in D. subst c. right.
      exists (string_of_list_ascii (List.rev r)).
      apply (f_equal (@List.rev ascii)) in E. rewrite rev_involutive in E.
      rewrite E. simpl. apply string_of_list_ascii_app.
  - intros [->|[p ->]]; [reflexivity | apply ext_match_trailing_dot].
Qed.






(** *** Binding *)

Lemma into_step_fun env file k md fns w :
  k < length md -> is_function (nth k md (VNum 0)) = true ->
  exists w' md',
    into_step env file k md fns w = (w', Ok (md', fns ++ md')) /\
    length md' = length md /\
    (forall j, k < j -> nth j md' (VNum 0) = nth j md (VNum 0)) /\
    instances w' = instances w ++
                   map (fun c => (c, class_init env c)) (class_of (nth k md (VNum 0))) /\
    (class_of (nth k md (VNum 0)) = [] -> md' = md).
Proof.
  intros Hk Hfun.
  assert (Hin : In (nth k md (VNum 0)) md) by (apply nth_In; lia).
  assert (Hidx := index_of_le _ md (VNum 0) k Hk eq_refl).
  assert (Hnth := nth_index_of _ md (VNum 0) Hin).
  unfold into_step. rewrite Hfun. simpl negb. cbv iota.
  destruct (nth k md (VNum 0)) as [f|c' b|c' n|n|z|s] eqn:Ei; try discriminate Hfun.
  - simpl. cbv [bind ret log opt gets modify]; simpl.
    destruct (verbose (options (loader w))); simpl; eexists _, _; (split; [reflexivity|]);
      repeat split; auto; simpl; rewrite app_nil_r; destruct w; reflexivity.
  - simpl. rewrite Hnth. cbv [bind ret log opt gets modify new_instance]; simpl.
    destruct b; destruct (verbose (options (loader w))) eqn:V;
      simpl; rewrite ?V; simpl; rewrite ?V; simpl;
      eexists _, _; (split; [reflexivity|]);
      (split; [first [apply set_nth_length | reflexivity]|]);
      (split; [intros j Hj; first [apply nth_set_nth_other; lia | reflexivity]|]);
      (split; [reflexivity|]); intro H; discriminate H.
  - simpl. cbv [bind ret log opt gets modify]; simpl.
    destruct (verbose (options (loader w))); simpl; eexists _, _; (split; [reflexivity|]);
      repeat split; auto; simpl; rewrite app_nil_r; destruct w; reflexivity.
Qed.

Lemma skipn_cons_nth {A} k (l : list A) d :
  k < length l -> skipn k l = nth k l d :: skipn (S k) l.
Proof.
  revert k; induction l as [|x l IH]; intros [|k] Hk; simpl in *; try lia; [reflexivity|].
  apply IH; lia.
Qed.

Lemma skipn_same_after {A} k (l l' : list A) d :
  length l' = length l -> (forall j, k <= j -> nth j l' d = nth j l d) ->
  skipn k l' = skipn k l.
Proof.
  intros Hl Hn. apply (nth_ext _ _ d d); [rewrite !length_skipn; lia|].
  intros i _. rewrite !nth_skipn. apply Hn; lia.
Qed.

Lemma class_exports_of_export T : flat_map class_of (map of_export T) = class_exports T.
Proof. induction T as [|[] T IH]; simpl; rewrite ?IH; reflexivity. Qed.

Lemma into_files_app env pre rest : forall fns w,
  into_files env (pre ++ rest) fns w = bind (into_files env pre fns) (into_files env rest) w.
Proof.
  induction pre as [|g pre IH]; intros fns w; simpl; [reflexivity|].
  unfold bind in *. destruct (into_file env g fns w) as [w1 [a|e]]; [apply IH|reflexivity].
Qed.

Lemma into_loop_nonfun env file : forall fuel k md fns w,
  k + fuel = length md ->
  (exists j, k <= j < k + fuel /\ is_function (nth j md (VNum 0)) = false) ->
  exists w', into_loop env file fuel k md fns w = (w', Exc (ErrMsg "module requires an function")).
Proof.
  induction fuel as [|fuel IH]; intros k md fns w Hk [j [Hj Hnf]]; [lia|].
  simpl. destruct (is_function (nth k md (VNum 0))) eqn:F.
  - destruct (into_step_fun env file k md fns w ltac:(lia) F)
      as [w1 [md1 [E [Hl [Hn _]]]]].
    rewrite (bind_ok _ _ _ _ _ E). apply IH; [lia|].
    assert (j <> k) by (intro; subst; congruence).
    exists j; split; [lia|]. rewrite Hn by lia. exact Hnf.
  - exists w. unfold into_step, bind. rewrite F. reflexivity.
Qed.

Lemma into_loop_instances env file : forall fuel k md fns w,
  k + fuel = length md -> Forall (fun x => is_function x = true) md ->
  exists w' fns',
    into_loop env file fuel k md fns w = (w', Ok fns') /\
    instances w' = instances w ++
      map (fun c => (c, class_init env c)) (flat_map class_of (skipn k md)).
Proof.
  induction fuel as [|fuel IH]; intros k md fns w Hk Hf.
  - exists w, fns; split; [reflexivity|]. rewrite skipn_all2 by lia. simpl.
    rewrite app_nil_r; reflexivity.
  - destruct (into_step_ok env file k md fns w 0 ltac:(lia) Hf)
      as [w1 [md1 [E [Hl [Hf1 [Hn _]]]]]].
    assert (Hfk : is_function (nth k md (VNum 0)) = true)
      by (rewrite Forall_forall in Hf; apply Hf, nth_In; lia).
    destruct (into_step_fun env file k md fns w ltac:(lia) Hfk)
      as [w2 [md2 [E' [_ [_ [Hi _]]]]]].
    rewrite E in E'. injection E' as <- <-.
    destruct (IH (S k) md1 (fns ++ md1) w1 ltac:(lia) Hf1) as [w3 [fns3 [E3 Hi3]]].
    exists w3, fns3. split; [simpl; rewrite (bind_ok _ _ _ _ _ E); exact E3|].
    rewrite Hi3, Hi, <- app_assoc, (skipn_cons_nth k md (VNum 0)) by lia.
    rewrite (skipn_same_after (S k) md md1 (VNum 0) Hl) by (intros j Hj; apply Hn; lia).
    simpl. rewrite map_app. reflexivity.
Qed.

Lemma into_loop_plain env file (fs : list nat) : forall fuel k fns w,
  k + fuel = length fs ->
  exists w', into_loop env file fuel k (map VFun fs) fns w
             = (w', Ok (fns ++ concat (repeat (map VFun fs) fuel))) /\
           listeners w' = listeners w.
Proof.
  induction fuel as [|fuel IH]; intros k fns w Hk.
  - exists w; simpl; rewrite app_nil_r; split; reflexivity.
  - assert (Hnth : nth k (map VFun fs) (VNum 0) = VFun (nth k fs 0)).
    { rewrite nth_indep with (d' := VFun 0) by (rewrite length_map; lia).
      apply map_nth. }
    destruct (into_step_fun env file k (map VFun fs) fns w
                ltac:(rewrite length_map; lia) ltac:(rewrite Hnth; reflexivity))
      as [w1 [md1 [E [_ [_ [_ Hm]]]]]].
    rewrite Hnth in Hm. specialize (Hm eq_refl). subst md1.
    destruct (IH (S k) (fns ++ map VFun fs) w1 ltac:(lia)) as [w2 [E2 L2]].
    exists w2. simpl. rewrite (bind_ok _ _ _ _ _ E), E2, <- app_assoc.
    split; [reflexivity|].
    pose proof (into_step_into env file k (map VFun fs) fns w) as P.
    rewrite E in P. destruct P as [_ [S _]]. simpl in S. congruence.
Qed.

Lemma forallb_false_exists {A} (f : A -> bool) l :
  forallb f l = false -> exists x, In x l /\ f x = false.
Proof.
  induction l as [|a l IH]; simpl; [discriminate|].
  destruct (f a) eqn:Fa; simpl; intro H.
  - destruct (IH H) as [x [Hx Fx]]; exists x; auto.
  - exists a; auto.
Qed.

Lemma into_files_prefix_ok env pre : forall fns w,
  files_load env pre ->
  exists w1 fns1, into_files env pre fns w = (w1, Ok fns1) /\ listeners w1 = listeners w.
Proof.
  intros fns w Hl.
  destruct (into_files_ok env 0 pre fns w Hl) as [w1 [fns1 [E _]]].
  exists w1, fns1. split; [exact E|].
  pose proof (into_files_into env pre fns w) as P. rewrite E in P. apply P.
Qed.

(** A file with an export that is not a function makes binding raise
    [module requires an function] (the files before it loading and
    exporting functions only), and no listener is registered. *)
Theorem into_rejects_non_function (env : Env) (server : jsval) (w : World)
    (pre : list string) (f : string) (post : list string) (T : list export) :
  files (loader w) = pre ++ f :: post -> files_load env pre ->
  require env f = inl T -> all_functions T = false ->
  snd (into env server w) = Exc (ErrMsg "module requires an function") /\
  listeners (fst (into env server w)) = listeners w.
Proof.
  intros Hfs Hl Hf HT.
  destruct (into_files_prefix_ok env pre [] w Hl) as [w1 [fns1 [E1 L1]]].
  assert (Hj : exists j, 0 <= j < 0 + length (map of_export T) /\
                 is_function (nth j (map of_export T) (VNum 0)) = false).
  { unfold all_functions in HT.
    destruct (forallb_false_exists _ T HT) as [x [Hx Hnx]].
    destruct (In_nth (map of_export T) (of_export x) (VNum 0) (in_map _ _ _ Hx))
      as [j [Hjl Hjn]].
    exists j; split; [lia|]. rewrite Hjn. exact Hnx. }
  destruct (into_loop_nonfun env f (length (map of_export T)) 0 (map of_export T) fns1 w1
              eq_refl Hj) as [w2 E2].
  pose proof (into_loop_into env f (length (map of_export T)) 0 (map of_export T) fns1 w1)
    as P. rewrite E2 in P. destruct P as [_ [L2 _]].
  assert (E2' : into_file env f fns1 w1 = (w2, Exc (ErrMsg "module requires an function")))
    by (unfold into_file; rewrite Hf; exact E2).
  assert (Eall : into_files env (files (loader w)) [] w
                 = (w2, Exc (ErrMsg "module requires an function"))).
  { rewrite Hfs, into_files_app, (bind_ok _ _ _ _ _ E1). simpl.
    exact (bind_exc _ _ _ _ _ E2'). }
  assert (Ei : into env server w = (w2, Exc (ErrMsg "module requires an function")))
    by (unfold into, bind, gets; simpl; rewrite Eall; reflexivity).
  rewrite Ei. split; [reflexivity|]. simpl in L2 |- *. congruence.
Qed.

Lemma into_rejects_non_function_witness :
  let env := demo_env ["a.js"] (only_a [XFun 1; XNum 3]) in
  let w := world_with_files env false ["/app/handlers/a.js"] in
  snd (into env (VObj 0) w) = Exc (ErrMsg "module requires an function") /\
  listeners (fst (into env (VObj 0) w)) = listeners w.
Proof.
  intros env w.
  apply (into_rejects_non_function env (VObj 0) w [] "/app/handlers/a.js" []
           [XFun 1; XNum 3]); try reflexivity.
  intros g [].
Defined.

(** A successful bind creates one instance of every class-shaped export,
    with or without a [connection] member, in file order then export order. *)
Theorem into_instantiates_each_class (env : Env) (server : jsval) (w : World)
    (mods : list (string * list export)) :
  files (loader w) = map fst mods ->
  (forall p, In p mods -> require env (fst p) = inl (snd p) /\ all_functions (snd p) = true) ->
  snd (into env server w) = Ok tt /\
  instances (fst (into env server w)) = instances w ++
    map (fun c => (c, class_init env c)) (flat_map (fun p => class_exports (snd p)) mods).
Proof.
  intros Hfs Hm.
  assert (H : forall fns w, exists w' fns',
             into_files env (map fst mods) fns w = (w', Ok fns') /\
             instances w' = instances w ++ map (fun c => (c, class_init env c))
                              (flat_map (fun p => class_exports (snd p)) mods)).
  { clear Hfs w. induction mods as [|[f T] mods IH]; intros fns w.
    - exists w, fns; simpl; rewrite app_nil_r; split; reflexivity.
    - destruct (Hm (f, T) (or_introl eq_refl)) as [HT HTf]. simpl in HT, HTf.
      destruct (into_loop_instances env f (length (map of_export T)) 0 (map of_export T)
                  fns w eq_refl (all_functions_Forall T HTf)) as [w1 [fns1 [E1 I1]]].
      destruct (IH (fun p Hp => Hm p (or_intror Hp)) fns1 w1) as [w2 [fns2 [E2 I2]]].
      exists w2, fns2. simpl. split.
      + unfold into_file at 1. rewrite HT. rewrite (bind_ok _ _ _ _ _ E1). exact E2.
      + rewrite I2, I1, <- app_assoc, <- map_app. simpl.
        rewrite class_exports_of_export. reflexivity. }
  destruct (H [] w) as [w' [fns' [E I]]].
  assert (Ei : into env server w = (add_listener (server, fns') w', Ok tt))
    by (unfold into, bind, gets, modify; simpl; rewrite Hfs, E; reflexivity).
  rewrite Ei. split; [reflexivity | exact I].
Qed.

Lemma into_instantiates_each_class_witness :
  let env := demo_env ["a.js"] (only_a [XClass 4 true; XFun 1; XClass 6 false]) in
  let w := world_with_files env false ["/app/handlers/a.js"] in
  snd (into env (VObj 0) w) = Ok tt /\
  instances (fst (into env (VObj 0) w)) = instances w ++
    map (fun c => (c, class_init env c))
      (flat_map (fun p => class_exports (snd p))
         [("/app/handlers/a.js", [XClass 4 true; XFun 1; XClass 6 false])]).
Proof.
  intros env w.
  apply (into_instantiates_each_class env (VObj 0) w
           [("/app/handlers/a.js", [XClass 4 true; XFun 1; XClass 6 false])]);
    [reflexivity|].
  intros p [<-|[]]. split; reflexivity.
Defined.

(** When every discovered file exports plain functions only, a bind
    registers one listener whose handler list holds, for each file in
    order, its exports repeated as many times as the file has exports. *)
Theorem into_plain_handler_list (env : Env) (server : jsval) (w : World)
    (mods : list (string * list nat)) :
  files (loader w) = map fst mods ->
  (forall p, In p mods -> require env (fst p) = inl (map XFun (snd p))) ->
  snd (into env server w) = Ok tt /\
  listeners (fst (into env server w)) = listeners w ++
    [(server, flat_map (fun p => concat (repeat (map VFun (snd p)) (length (snd p)))) mods)].
Proof.
  intros Hfs Hm.
  assert (H : forall fns w, exists w',
             into_files env (map fst mods) fns w
             = (w', Ok (fns ++ flat_map (fun p => concat (repeat (map VFun (snd p))
                                                         (length (snd p)))) mods)) /\
             listeners w' = listeners w).
  { clear Hfs w. induction mods as [|[f fs] mods IH]; intros fns w.
    - exists w; simpl; rewrite app_nil_r; split; reflexivity.
    - pose proof (Hm (f, fs) (or_introl eq_refl)) as HT. simpl in HT.
      destruct (into_loop_plain env f fs (length fs) 0 fns w eq_refl) as [w1 [E1 L1]].
      destruct (IH (fun p Hp => Hm p (or_intror Hp))
                  (fns ++ concat (repeat (map VFun fs) (length fs))) w1) as [w2 [E2 L2]].
      exists w2. simpl. split; [|congruence].
      unfold into_file at 1. rewrite HT, map_map. simpl.
      replace (map (fun x => VFun x) fs) with (map VFun fs) by reflexivity.
      rewrite length_map. rewrite (bind_ok _ _ _ _ _ E1), E2, <- app_assoc. reflexivity. }
  destruct (H [] w) as [w' [E L]].
  assert (Ei : into env server w
               = (add_listener (server, flat_map (fun p => concat (repeat (map VFun (snd p))
                                                      (length (snd p)))) mods) w', Ok tt))
    by (unfold into, bind, gets, modify; simpl; rewrite Hfs, E; reflexivity).
  rewrite Ei. simpl. split; [reflexivity|]. rewrite L. reflexivity.
Qed.

Lemma into_plain_handler_list_witness :
  let env := demo_env ["a.js"] (only_a [XFun 1; XFun 2; XFun 3]) in
  let w := world_with_files env false ["/app/handlers/a.js"] in
  snd (into env (VObj 0) w) = Ok tt /\
  listeners (fst (into env (VObj 0) w)) = listeners w ++
    [(VObj 0, flat_map (fun p => concat (repeat (map VFun (snd p)) (length (snd p))))
                [("/app/handlers/a.js", [1; 2; 3])])].
Proof.
  intros env w.
  apply (into_plain_handler_list env (VObj 0) w [("/app/handlers/a.js", [1; 2; 3])]);
    [reflexivity|].
  intros p [<-|[]]. reflexivity.
Defined.
